(** * control/rover.py: Environment, Scanner and Rover

    A shallow embedding of [src/control/rover.py] and the properties of its
    scan merging, object segmentation, coordinate transform and
    reorientation protocol.

    Numbers.  The Scanner only orders, subtracts and tests its float64
    entries; there an entry is either NaN or a rational ([float64]), and the
    one subtraction (the width test) is exact where the program rounds.
    Rounding is monotone and 3 is a float, so whenever the program's test
    [a - b > 3] passes, the exact one passes: the program emits a cluster
    only where the embedding does.  The properties of the segmenter are
    stated so that they carry over: about every cluster emitted, never that
    one is emitted on the strength of the test.
    The Environment applies [np.cos] and [np.sin]; its entries are modelled
    as real numbers.  Its properties are either evaluated where float64 is
    exact as well, or state the program's own expression, operation for
    operation; none uses an identity of the reals that float64 lacks.
    Where the rounding decides a claim, the transform is evaluated in
    binary64 itself ([Binary64]).
    Rendering (the matplotlib [view], [draw]) is left out. *)

From Stdlib Require Import List Arith ZArith QArith Bool Lia Lqa Lra.
From Stdlib Require Import Sorting.Sorted Sorting.Permutation.
From Stdlib Require Import Reals.
From Stdlib Require PrimFloat.
Import ListNotations.
Close Scope Q_scope.

(** ** Exceptions *)

Inductive exn := NotImplementedError | ValueError.

Inductive result (A : Type) :=
| Ok (a : A)
| Raise (e : exn).
Arguments Ok {A} a.
Arguments Raise {A} e.

Definition rbind {A B} (r : result A) (k : A -> result B) : result B :=
  match r with
  | Ok a => k a
  | Raise e => Raise e
  end.

(** ** float64 entries of the Scanner's arrays *)

Module F64.

Inductive float64 :=
| NaN
| Fin (q : Q).

(** [math.isnan] *)
Definition isnan (x : float64) : bool :=
  match x with NaN => true | Fin _ => false end.

(** [x - y]; NaN propagates. *)
Definition sub (x y : float64) : float64 :=
  match x, y with
  | Fin a, Fin b => Fin (a - b)%Q
  | _, _ => NaN
  end.

(** [x > y]; false as soon as one side is NaN. *)
Definition gtb (x y : float64) : bool :=
  match x, y with
  | Fin a, Fin b => negb (Qle_bool a b)
  | _, _ => false
  end.

(** [x < y]; false as soon as one side is NaN. *)
Definition ltb (x y : float64) : bool := gtb y x.

(** The order [np.sort] puts floats in: ascending, NaN last. *)
Definition sort_leb (x y : float64) : bool :=
  match x, y with
  | _, NaN => true
  | NaN, Fin _ => false
  | Fin a, Fin b => Qle_bool a b
  end.

Definition of_Z (z : Z) : float64 := Fin (inject_Z z).

End F64.
Import F64.

(** ** numpy arrays of shape (n, 2) *)

(** A two-column [np.ndarray], row by row: column 0 holds the angle
    (degrees), column 1 the radial distance (cm). *)
Definition ndarray := list (float64 * float64).

(** [a[:, 0]] and [a[:, 1]] *)
Definition col0 (a : ndarray) : list float64 := map fst a.
Definition col1 (a : ndarray) : list float64 := map snd a.

(** [np.append(a, b, axis=0)] *)
Definition np_append (a b : ndarray) : ndarray := a ++ b.

Fixpoint insert_sorted (x : float64) (l : list float64) : list float64 :=
  match l with
  | [] => [x]
  | y :: l' => if sort_leb x y then x :: y :: l' else y :: insert_sorted x l'
  end.

(** [np.sort] of a one-dimensional float array. *)
Fixpoint sort1d (l : list float64) : list float64 :=
  match l with
  | [] => []
  | x :: l' => insert_sorted x (sort1d l')
  end.

(** [np.sort(a, axis=0)]: sorting along axis 0 sorts every column on its
    own. *)
Definition np_sort_axis0 (a : ndarray) : ndarray :=
  combine (sort1d (col0 a)) (sort1d (col1 a)).

(** Ascending in the order of [np.sort]. *)
Definition ascending (l : list float64) : Prop :=
  StronglySorted (fun x y => sort_leb x y = true) l.

(** [a[s:e]] for [0 <= s], [0 <= e]; out-of-range bounds are clamped. *)
Definition slice {A} (a : list A) (s e : nat) : list A :=
  firstn (e - s) (skipn s a).

(** [a - 1], elementwise. *)
Definition np_sub_scalar (a : ndarray) (c : float64) : ndarray :=
  map (fun row => (sub (fst row) c, sub (snd row) c)) a.

(** ** Scanner *)

(** What [Rover.scan] produces: the IR array and the sonar array. *)
Definition scan_data := (ndarray * ndarray)%type.

Module Scanner.

Record t := mk {
  scans : list scan_data;
}.

(** [Scanner.__init__] *)
Definition init : t := mk [].

(** [Scanner.add_scan] *)
Definition add_scan (self : t) (sd : scan_data) : t :=
  mk (scans self ++ [sd]).

(** Lines 392-405 of [find_obj_clouds]: all scans appended, then sorted. *)
Definition comb_scans (self : t) : result scan_data :=
  match scans self with
  | [] => Raise NotImplementedError
  | first :: rest =>
      let comb :=
        fold_left
          (fun comb sc => (np_append (fst comb) (fst sc),
                           np_append (snd comb) (snd sc)))
          rest (fst first, snd first) in
      Ok (np_sort_axis0 (fst comb), np_sort_axis0 (snd comb))
  end.

(** The local variables of the loop of [find_obj_clouds].  [start_deg] is
    compared with [is 0]: it is [None] while it holds the integer [0] it is
    initialised and reset to, and [Some a] once an array entry [a] (a numpy
    scalar, never the integer object [0]) has been stored in it. *)
Record loop_state := mkLoop {
  start_deg : option float64;
  start_deg_index : nat;
  end_deg : float64;
  end_deg_index : nat;
  obj_list : list scan_data;
}.

Definition min_width : float64 := of_Z 3.

Definition row (a : ndarray) (i : nat) : float64 * float64 := nth i a (NaN, NaN).

Definition loop_init : loop_state := mkLoop None 0 (of_Z 0) 0 [].

(** One iteration of [for i in range(0, len(comb_scans[0]))]. *)
Definition loop_body (comb : scan_data) (st : loop_state) (i : nat) : loop_state :=
  let ir := fst comb in
  if negb (isnan (snd (row ir i))) &&
     match start_deg st with None => true | Some _ => false end
  then
    mkLoop (Some (fst (row ir i))) i (end_deg st) (end_deg_index st) (obj_list st)
  else
    match start_deg st with
    | Some sd =>
        if isnan (snd (row ir i)) || (i =? length (np_sub_scalar ir (of_Z 1)))
        then
          if gtb (sub (fst (row ir i)) sd) min_width
          then
            let e := fst (row ir i) in
            let obj := (slice (fst comb) (start_deg_index st) i,
                        slice (snd comb) (start_deg_index st) i) in
            mkLoop None (start_deg_index st) e i (obj_list st ++ [obj])
          else
            mkLoop None (start_deg_index st) (end_deg st) (end_deg_index st)
                   (obj_list st)
        else st
    | None => st
    end.

(** Lines 412-446: the segmentation of a combined scan. *)
Definition segment (comb : scan_data) : list scan_data :=
  obj_list (fold_left (loop_body comb) (seq 0 (length (fst comb))) loop_init).

(** [Scanner.find_obj_clouds] *)
Definition find_obj_clouds (self : t) : result (list scan_data) :=
  rbind (comb_scans self) (fun comb => Ok (segment comb)).

(** *** Index ranges of the emitted clusters

    [find_obj_clouds] returns array slices only.  To speak about where the
    slices come from, the same loop is run once more, recording the pair
    [(start_deg_index, end_deg_index)] of every object instead of the
    slices cut at it. *)
Record ranges_state := mkRanges {
  r_start_deg : option float64;
  r_start_deg_index : nat;
  ranges : list (nat * nat);
}.

Definition ranges_init : ranges_state := mkRanges None 0 [].

Definition ranges_body (ir : ndarray) (st : ranges_state) (i : nat) : ranges_state :=
  if negb (isnan (snd (row ir i))) &&
     match r_start_deg st with None => true | Some _ => false end
  then mkRanges (Some (fst (row ir i))) i (ranges st)
  else
    match r_start_deg st with
    | Some sd =>
        if isnan (snd (row ir i)) || (i =? length (np_sub_scalar ir (of_Z 1)))
        then
          if gtb (sub (fst (row ir i)) sd) min_width
          then mkRanges None (r_start_deg_index st)
                        (ranges st ++ [(r_start_deg_index st, i)])
          else mkRanges None (r_start_deg_index st) (ranges st)
        else st
    | None => st
    end.

Definition cluster_ranges (ir : ndarray) : list (nat * nat) :=
  ranges (fold_left (ranges_body ir) (seq 0 (length ir)) ranges_init).

(** The slices of both channels at an index range. *)
Definition cut (comb : scan_data) (r : nat * nat) : scan_data :=
  (slice (fst comb) (fst r) (snd r), slice (snd comb) (fst r) (snd r)).

(** The angle and the radius stored at index [i]. *)
Definition angle_at (ir : ndarray) (i : nat) : float64 := fst (row ir i).
Definition radius_at (ir : ndarray) (i : nat) : float64 := snd (row ir i).

(** The angular span of a cluster in the spec's words: last contained
    angle minus first contained angle. *)
Definition angular_span (cluster : ndarray) : float64 :=
  sub (fst (last cluster (NaN, NaN))) (fst (hd (NaN, NaN) cluster)).

(** Index ranges that follow one another: each starts after the end index
    of the one before. *)
Fixpoint ordered_from (lo : nat) (rs : list (nat * nat)) : Prop :=
  match rs with
  | [] => True
  | (s, e) :: rs' => lo <= s /\ s < e /\ ordered_from (S e) rs'
  end.

(** The loop of [find_obj_clouds] and the loop recording index ranges run
    in step. *)
Definition in_step (comb : scan_data) (st : loop_state) (rst : ranges_state) : Prop :=
  start_deg st = r_start_deg rst /\
  start_deg_index st = r_start_deg_index rst /\
  obj_list st = map (cut comb) (ranges rst).

(** What holds of one recorded range [(s, e)]: the run starts at a valid
    reading, ends at a gap inside the array, and the angle at the gap
    exceeds the angle at the start by more than [min_width]. *)
Definition range_ok (ir : ndarray) (r : nat * nat) : Prop :=
  snd r < length ir /\
  isnan (radius_at ir (fst r)) = false /\
  isnan (radius_at ir (snd r)) = true /\
  gtb (sub (angle_at ir (snd r)) (angle_at ir (fst r))) min_width = true.

(** The loop invariant after the indices below [k]. *)
Definition inv (ir : ndarray) (k : nat) (st : ranges_state) : Prop :=
  ordered_from 0 (ranges st) /\
  Forall (range_ok ir) (ranges st) /\
  match r_start_deg st with
  | Some a =>
      r_start_deg_index st < k /\
      a = angle_at ir (r_start_deg_index st) /\
      isnan (radius_at ir (r_start_deg_index st)) = false /\
      Forall (fun r => snd r < r_start_deg_index st) (ranges st)
  | None => Forall (fun r => snd r < k) (ranges st)
  end.

End Scanner.

(** ** Python's [range] *)

(** [len(range(start, stop, step))] for [step <> 0]. *)
Definition range_len (start stop step : Z) : nat :=
  if (0 <? step)%Z then
    if (start <? stop)%Z then Z.to_nat ((stop - start - 1) / step + 1) else 0
  else
    if (stop <? start)%Z then Z.to_nat ((start - stop - 1) / (- step) + 1) else 0.

(** [list(range(start, stop, step))] for [step <> 0]. *)
Definition py_range (start stop step : Z) : list Z :=
  map (fun k => (start + Z.of_nat k * step)%Z) (seq 0 (range_len start stop step)).

(** ** Events

    The order in which the mutations of one call happen.  Every embedded
    method reports what it has done, when it has done it. *)

Definition point := (R * R)%type.

(** [matplotlib.patches.Circle(xy, radius)] *)
Record Circle := mkCircle { center : point; radius : R }.

(** [matplotlib.patches.Wedge(center, r, theta1, theta2)] *)
Record Wedge := mkWedge { w_center : point; w_r : R; theta1 : R; theta2 : R }.

(** What [view.plot(xs, ys)] returns, kept as the data it was drawn from. *)
Definition Line2D := (list R * list R)%type.

Inductive event :=
| EvScannerReplaced                  (* [self.scanner = Scanner()] *)
| EvContoursFinalized                (* [finalize_contours] has returned *)
| EvOiMove (dist speed : R)          (* [oi.move] *)
| EvOiRotate (delta : R)             (* [oi.rotate] *)
| EvBreadcrumb (c : Circle)          (* [self.breadcrumbs.append(c)] *)
| EvLoc (new_loc : point)            (* [self._loc = new_loc] *)
| EvDirection (new_direction : R)    (* [self._direction = new_direction] *)
| EvDanger (danger_id : Z).          (* [sys.stderr.write(...)] *)

(** [self._loc] or [self._direction] is assigned. *)
Definition is_pose_mutation (e : event) : bool :=
  match e with
  | EvLoc _ | EvDirection _ => true
  | _ => false
  end.

(** In the log [tr], whatever comes before an assignment to the pose
    contains the replacement of the scanner and, after it, the return of
    [finalize_contours]. *)
Definition finalized_before_pose (tr : list event) : Prop :=
  forall pre e post,
    tr = pre ++ e :: post -> is_pose_mutation e = true ->
    exists a b c, pre = a ++ EvScannerReplaced :: b ++ EvContoursFinalized :: c.

(** State and event log. *)
Definition M (S A : Type) : Type := S -> A * S * list event.

Definition ret {S A} (a : A) : M S A := fun s => (a, s, []).

Definition bind {S A B} (m : M S A) (k : A -> M S B) : M S B :=
  fun s =>
    let '(a, s1, l1) := m s in
    let '(b, s2, l2) := k a s1 in
    (b, s2, l1 ++ l2).

Definition emit {S} (e : event) : M S unit := fun s => (tt, s, [e]).
Definition get {S} : M S S := fun s => (s, s, []).
Definition put {S} (s' : S) : M S unit := fun _ => (tt, s', []).

Definition value_of {S A} (m : M S A) (s : S) : A := fst (fst (m s)).
Definition state_of {S A} (m : M S A) (s : S) : S := snd (fst (m s)).
Definition events_of {S A} (m : M S A) (s : S) : list event := snd (m s).

Declare Scope m_scope.
Delimit Scope m_scope with m.
Notation "x <- m ;; k" := (bind m (fun x => k))
  (at level 61, m at next level, right associativity) : m_scope.
Notation "m ;; k" := (bind m (fun _ => k))
  (at level 61, right associativity) : m_scope.
Local Open Scope m_scope.

(** ** Environment *)

Local Open Scope R_scope.

(** A two-column array of the Environment, row by row. *)
Definition rarray := list (R * R).

Definition zip_with {A B C} (f : A -> B -> C) (l1 : list A) (l2 : list B) : list C :=
  map (fun ab => f (fst ab) (snd ab)) (combine l1 l2).

Module Environment.

Record t := mk {
  _loc : point;
  _direction : R;
  breadcrumbs : list Circle;
  ir_obs : list (list point);
  sonar_obs : list (list point);
  contours : list Line2D;
  volatile_contours : list Line2D;
  scan_field : option Wedge;
}.

(** [update_scan_field] *)
Definition update_scan_field : M t unit :=
  self <- get ;;
  put (mk (_loc self) (_direction self) (breadcrumbs self) (ir_obs self)
          (sonar_obs self) (contours self) (volatile_contours self)
          (Some (mkWedge (_loc self) 100 (_direction self - 90)
                         (_direction self + 90)))).

(** [__init__] *)
Definition init : t :=
  state_of update_scan_field (mk (0, 0) 90 [] [] [] [] [] None).

(** [conv_radial] *)
Definition conv_radial (self : t) (theta r : R) : point :=
  let theta_prime := (theta - 90 + _direction self) * (PI / 180) in
  (r * cos theta_prime + fst (_loc self),
   r * sin theta_prime + snd (_loc self)).

(** [conv_radial_arr] *)
Definition conv_radial_arr (self : t) (thetas rs : list R) : result (list point) :=
  if negb (length thetas =? length rs)%nat then Raise ValueError
  else
    let rv0 := map (fun th => th - 90 + _direction self) thetas in
    let rv0 := map (fun x => x * (PI / 180)) rv0 in
    let rv1 := rv0 in
    let rv0 := zip_with (fun r x => r * cos x + fst (_loc self)) rs rv0 in
    let rv1 := zip_with (fun r x => r * sin x + snd (_loc self)) rs rv1 in
    Ok (combine rv0 rv1).

(** [loc] *)
Definition loc (new_loc : option point) : M t (option point) :=
  match new_loc with
  | None => self <- get ;; ret (Some (_loc self))
  | Some l =>
      self <- get ;;
      put (mk l (_direction self) (breadcrumbs self) (ir_obs self)
              (sonar_obs self) (contours self) (volatile_contours self)
              (scan_field self)) ;;
      emit (EvLoc l) ;;
      update_scan_field ;;
      ret None
  end.

(** [add_breadcumb] *)
Definition add_breadcumb : M t unit :=
  self <- get ;;
  let c := mkCircle (_loc self) 16.25 in
  put (mk (_loc self) (_direction self) (breadcrumbs self ++ [c]) (ir_obs self)
          (sonar_obs self) (contours self) (volatile_contours self)
          (scan_field self)) ;;
  emit (EvBreadcrumb c).

(** [move] *)
Definition move (dist : R) : M t unit :=
  add_breadcumb ;;
  self <- get ;;
  let new_loc := conv_radial self 90 dist in
  loc (Some new_loc) ;;
  ret tt.

(** [direction] *)
Definition direction (new_direction : option R) : M t (option R) :=
  match new_direction with
  | None => self <- get ;; ret (Some (_direction self))
  | Some d =>
      self <- get ;;
      put (mk (_loc self) d (breadcrumbs self) (ir_obs self)
              (sonar_obs self) (contours self) (volatile_contours self)
              (scan_field self)) ;;
      emit (EvDirection d) ;;
      update_scan_field ;;
      ret None
  end.

(** [rotate] *)
Definition rotate (delta : R) : M t unit :=
  self <- get ;;
  direction (Some (_direction self + delta)) ;;
  ret tt.

(** [add_scan]: the point clouds after the call, or the exception of
    [conv_radial_arr]. *)
Definition add_scan (self : t) (sd : rarray * rarray) : result t :=
  let '(ir_data, sonar_data) := sd in
  rbind (conv_radial_arr self (map fst ir_data) (map snd ir_data)) (fun ir_data =>
  rbind (conv_radial_arr self (map fst sonar_data) (map fst sonar_data)) (fun sonar_data =>
  Ok (mk (_loc self) (_direction self) (breadcrumbs self)
         (ir_obs self ++ [ir_data]) (sonar_obs self ++ [sonar_data])
         (contours self) (volatile_contours self) (scan_field self)))).

(** [add_danger] *)
Definition add_danger (danger_id : Z) : M t unit :=
  emit (EvDanger danger_id).

(** [add_contour] *)
Definition add_contour (xs ys : list R) (volatile : bool) : M t unit :=
  self <- get ;;
  let c : Line2D := (xs, ys) in
  if volatile then
    put (mk (_loc self) (_direction self) (breadcrumbs self) (ir_obs self)
            (sonar_obs self) (contours self) (volatile_contours self ++ [c])
            (scan_field self))
  else
    put (mk (_loc self) (_direction self) (breadcrumbs self) (ir_obs self)
            (sonar_obs self) (contours self ++ [c]) (volatile_contours self)
            (scan_field self)).

(** [_clear_volatile_contours]: the body is a docstring and a commented-out
    TODO; nothing is executed. *)
Definition _clear_volatile_contours : M t unit := ret tt.

(** [finalize_contours] *)
Definition finalize_contours : M t unit :=
  self <- get ;;
  put (mk (_loc self) (_direction self) (breadcrumbs self) (ir_obs self)
          (sonar_obs self) (contours self ++ volatile_contours self)
          (volatile_contours self) (scan_field self)) ;;
  _clear_volatile_contours ;;
  emit EvContoursFinalized.

End Environment.

(** ** Rover *)

Module Rover.

Record t := mk {
  env : Environment.t;
  scanner : Scanner.t;
}.

(** Run a method of [self.env]. *)
Definition on_env {A} (m : M Environment.t A) : M t A :=
  fun self =>
    let '(a, e, l) := m (env self) in
    (a, mk e (scanner self), l).

(** The angles of [scan]: lines 535-538. *)
Definition scan_angles (start end_ : Z) : list Z :=
  if (start <=? end_)%Z then py_range start end_ 1
  else py_range end_ start (-1).

(** [_finalize_for_reorientation] *)
Definition _finalize_for_reorientation : M t unit :=
  self <- get ;;
  put (mk (env self) Scanner.init) ;;
  emit EvScannerReplaced ;;
  on_env Environment.finalize_contours.

Section Collaborators.

(** [oi.move(self.sen, dist, speed)]: the distance travelled and the stop
    reason reported by the robot. *)
Variable oi_move : R -> R -> R * Z.

(** [codes.OIStopID.full_distance] *)
Variable full_distance : Z.

(** [move] *)
Definition move (dist speed : R) : M t unit :=
  _finalize_for_reorientation ;;
  emit (EvOiMove dist speed) ;;
  let '(dist, stop_reason) := oi_move dist speed in
  on_env (Environment.move dist) ;;
  if negb (stop_reason =? full_distance)%Z
  then on_env (Environment.add_danger stop_reason)
  else ret tt.

(** [rotate] *)
Definition rotate (delta : R) : M t unit :=
  _finalize_for_reorientation ;;
  emit (EvOiRotate delta) ;;
  on_env (Environment.rotate delta).

End Collaborators.

End Rover.

(** ** The transform in binary64

    [conv_radial] once more, over IEEE binary64 as numpy computes it.
    [np.cos] and [np.sin] belong to numpy, not to this repository: they are
    parameters. *)

Module Binary64.

Import PrimFloat.
Local Open Scope float_scope.

(** [np.pi] *)
Definition np_pi : float := 0x1.921fb54442d18p+1.

Section Libm.

Variables np_cos np_sin : float -> float.

(** [Environment.conv_radial], with [self._loc] and [self._direction]
    passed along. *)
Definition conv_radial (_loc : float * float) (_direction theta r : float)
  : float * float :=
  let theta_prime := (theta - 90 + _direction) * (np_pi / 180) in
  (r * np_cos theta_prime + fst _loc,
   r * np_sin theta_prime + snd _loc).

(** The location [Environment.move] assigns: [self.conv_radial(90, dist)]. *)
Definition move_loc (_loc : float * float) (_direction dist : float)
  : float * float :=
  conv_radial _loc _direction 90 dist.

End Libm.

(** The double next below pi/2, 1.5707963267948966: what
    [(90 - 90.0 + 90.0) * (np.pi / 180.0)] evaluates to. *)
Definition half_pi : float := 0x1.921fb54442d18p+0.

(** numpy at [half_pi]: [np.cos(1.5707963267948966)] is
    6.123233995736766e-17 and [np.sin(1.5707963267948966)] is 1.0.  No
    other argument is tabulated. *)
Definition numpy_cos (x : float) : float :=
  if x =? half_pi then 0x1.1a62633145c07p-54 else nan.

Definition numpy_sin (x : float) : float :=
  if x =? half_pi then 1 else nan.

End Binary64.

(** ** Sample inputs *)

(** One batch of two IR samples, the nearer object at the larger angle. *)
Definition two_samples : scan_data :=
  ([(of_Z 10, of_Z 5); (of_Z 20, of_Z 3)],
   [(of_Z 10, of_Z 50); (of_Z 20, of_Z 30)]).

(** Three valid readings from 10 to 30 degrees, no gap. *)
Definition open_run : scan_data :=
  ([(of_Z 10, of_Z 5); (of_Z 20, of_Z 5); (of_Z 30, of_Z 5)],
   [(of_Z 10, of_Z 5); (of_Z 20, of_Z 5); (of_Z 30, of_Z 5)]).

(** What [two_samples] and [narrow_run], added in this order, combine
    to. *)
Definition merged_two_batches : scan_data :=
  ([(of_Z 10, of_Z 3); (of_Z 10, of_Z 5); (of_Z 20, of_Z 5); (of_Z 20, NaN)],
   [(of_Z 10, of_Z 30); (of_Z 10, of_Z 30); (of_Z 20, of_Z 50); (of_Z 20, of_Z 50)]).

(** One valid reading at 10 degrees, then a gap at 20 degrees. *)
Definition narrow_run : scan_data :=
  ([(of_Z 10, of_Z 5); (of_Z 20, NaN)],
   [(of_Z 10, of_Z 50); (of_Z 20, of_Z 30)]).

(** Two batches, the second without samples; every IR radius is a gap. *)
Definition all_gaps : Scanner.t :=
  Scanner.mk [([(of_Z 10, NaN); (of_Z 20, NaN)], [(of_Z 10, of_Z 7); (of_Z 20, NaN)]);
              ([], [])].

(** One IR echo and one sonar echo at angle 0, both 50 cm away. *)
Definition one_echo : rarray * rarray := ([(0, 50)], [(0, 50)]).

(** An Environment holding one volatile contour. *)
Definition one_volatile : Environment.t :=
  state_of (Environment.add_contour [0; 1] [0; 1] true) Environment.init.

(** ** Notions used by the further properties *)

(** The number of valid (non-NaN) radii of an array. *)
Definition valid_count (a : ndarray) : nat :=
  length (filter (fun r => negb (isnan r)) (col1 a)).

(** No gap inside the index range [r]. *)
Definition gap_free (ir : ndarray) (r : nat * nat) : Prop :=
  forall i, (fst r <= i < snd r)%nat -> isnan (Scanner.radius_at ir i) = false.

(** The second loop invariant after the indices below [k]: recorded ranges
    and the run that is open hold valid readings only. *)
Definition inv_gap_free (ir : ndarray) (k : nat) (st : Scanner.ranges_state) : Prop :=
  Forall (gap_free ir) (Scanner.ranges st) /\
  match Scanner.r_start_deg st with
  | Some _ =>
      forall i, (Scanner.r_start_deg_index st <= i < k)%nat ->
                isnan (Scanner.radius_at ir i) = false
  | None => True
  end.

(** The calls a user can make on an Environment. *)
Inductive env_op :=
| OpLoc (new_loc : point)
| OpMove (dist : R)
| OpDirection (new_direction : R)
| OpRotate (delta : R)
| OpAddScan (sd : rarray * rarray)
| OpAddBreadcumb
| OpAddDanger (danger_id : Z)
| OpAddContour (xs ys : list R) (volatile : bool)
| OpFinalizeContours
| OpUpdateScanField.

(** The Environment after one call; [add_scan] leaves it as it was should
    it raise. *)
Definition run_op (self : Environment.t) (op : env_op) : Environment.t :=
  match op with
  | OpLoc l => state_of (Environment.loc (Some l)) self
  | OpMove d => state_of (Environment.move d) self
  | OpDirection d => state_of (Environment.direction (Some d)) self
  | OpRotate d => state_of (Environment.rotate d) self
  | OpAddScan sd =>
      match Environment.add_scan self sd with
      | Ok self' => self'
      | Raise _ => self
      end
  | OpAddBreadcumb => state_of Environment.add_breadcumb self
  | OpAddDanger d => state_of (Environment.add_danger d) self
  | OpAddContour xs ys v => state_of (Environment.add_contour xs ys v) self
  | OpFinalizeContours => state_of Environment.finalize_contours self
  | OpUpdateScanField => state_of Environment.update_scan_field self
  end.

(** The Environment after a sequence of calls. *)
Definition run_ops (self : Environment.t) (ops : list env_op) : Environment.t :=
  fold_left run_op ops self.

(** The scan field drawn is the half disc of radius 100 at the current
    location, turned to the current direction. *)
Definition scan_field_ok (self : Environment.t) : Prop :=
  Environment.scan_field self =
  Some (mkWedge (Environment._loc self) 100
                (Environment._direction self - 90)
                (Environment._direction self + 90)).

Definition is_breadcrumb_op (op : env_op) : bool :=
  match op with
  | OpMove _ | OpAddBreadcumb => true
  | _ => false
  end.

Definition is_add_scan (op : env_op) : bool :=
  match op with
  | OpAddScan _ => true
  | _ => false
  end.

(** [l] still starts with everything [l0] held. *)
Definition extends {A} (l0 l : list A) : Prop := exists added, l = l0 ++ added.

(** * Properties *)

(** ** The order of [np.sort] *)

Section SortOrder.

Lemma sort_leb_total x y : sort_leb x y = false -> sort_leb y x = true.
Proof.
  destruct x as [|a], y as [|b]; simpl; try congruence.
  intros H. apply Qle_bool_iff.
  destruct (Qlt_le_dec b a) as [L|L]; [now apply Qlt_le_weak|].
  apply Qle_bool_iff in L. congruence.
Qed.

Lemma sort_leb_trans x y z :
  sort_leb x y = true -> sort_leb y z = true -> sort_leb x z = true.
Proof.
  destruct x as [|a], y as [|b], z as [|c]; simpl; try congruence.
  rewrite !Qle_bool_iff. apply Qle_trans.
Qed.

Lemma insert_sorted_perm x l : Permutation (x :: l) (insert_sorted x l).
Proof.
  induction l as [|y l IH]; simpl; [reflexivity|].
  destruct (sort_leb x y); [reflexivity|].
  rewrite perm_swap. now apply perm_skip.
Qed.

Lemma sort1d_perm l : Permutation l (sort1d l).
Proof.
  induction l as [|x l IH]; simpl; [constructor|].
  rewrite <- insert_sorted_perm. now apply perm_skip.
Qed.

Lemma sort1d_length l : length (sort1d l) = length l.
Proof. symmetry. apply Permutation_length, sort1d_perm. Qed.

Lemma insert_sorted_ascending x l :
  ascending l -> ascending (insert_sorted x l).
Proof.
  unfold ascending.
  induction l as [|y l IH]; simpl; intros H.
  - repeat constructor.
  - inversion H as [|? ? Hl Hy]; subst.
    destruct (sort_leb x y) eqn:E.
    + constructor; [exact H|]. constructor; [exact E|].
      eapply Forall_impl; [|exact Hy].
      intros z Hz. eapply sort_leb_trans; eauto.
    + constructor; [now apply IH|].
      eapply Permutation_Forall; [apply insert_sorted_perm|].
      constructor; [now apply sort_leb_total|exact Hy].
Qed.

Lemma sort1d_ascending l : ascending (sort1d l).
Proof.
  induction l as [|x l IH]; simpl; [constructor|].
  now apply insert_sorted_ascending.
Qed.

Lemma ascending_nth l i j d :
  ascending l -> (i < j)%nat -> (j < length l)%nat ->
  sort_leb (nth i l d) (nth j l d) = true.
Proof.
  unfold ascending. intros H. revert i j.
  induction H as [|x l Hl IH Hx]; simpl; intros i j Hij Hj; [lia|].
  destruct j as [|j]; [lia|]. destruct i as [|i].
  - rewrite Forall_forall in Hx. apply Hx, nth_In. lia.
  - apply IH; lia.
Qed.

End SortOrder.

(** ** The combined scan *)

Section Combined.

Lemma map_fst_combine {A B} (l : list A) (l' : list B) :
  length l = length l' -> map fst (combine l l') = l.
Proof.
  revert l'. induction l as [|x l IH]; destruct l' as [|y l']; simpl;
    try discriminate; auto.
  intros H. f_equal. apply IH. congruence.
Qed.

Lemma map_snd_combine {A B} (l : list A) (l' : list B) :
  length l = length l' -> map snd (combine l l') = l'.
Proof.
  revert l'. induction l as [|x l IH]; destruct l' as [|y l']; simpl;
    try discriminate; auto.
  intros H. f_equal. apply IH. congruence.
Qed.

Lemma np_sort_axis0_col0 a : col0 (np_sort_axis0 a) = sort1d (col0 a).
Proof.
  unfold np_sort_axis0, col0, col1. apply map_fst_combine.
  now rewrite !sort1d_length, !length_map.
Qed.

Lemma np_sort_axis0_col1 a : col1 (np_sort_axis0 a) = sort1d (col1 a).
Proof.
  unfold np_sort_axis0, col0, col1. apply map_snd_combine.
  now rewrite !sort1d_length, !length_map.
Qed.

(** The arrays appended by the loop of lines 401-402. *)
Lemma fold_append (rest : list scan_data) (a b : ndarray) :
  fold_left
    (fun comb sc => (np_append (fst comb) (fst sc), np_append (snd comb) (snd sc)))
    rest (a, b)
  = (a ++ concat (map fst rest), b ++ concat (map snd rest)).
Proof.
  revert a b. induction rest as [|sc rest IH]; intros a b; simpl.
  - now rewrite !app_nil_r.
  - rewrite IH. unfold np_append. now rewrite <- !app_assoc.
Qed.

(** With at least one scan the combined scan is, channel by channel, every
    column of the appended scans sorted on its own. *)
Lemma comb_scans_columns (self : Scanner.t) first rest :
  Scanner.scans self = first :: rest ->
  exists comb,
    Scanner.comb_scans self = Ok comb /\
    col0 (fst comb) = sort1d (col0 (concat (map fst (first :: rest)))) /\
    col1 (fst comb) = sort1d (col1 (concat (map fst (first :: rest)))) /\
    col0 (snd comb) = sort1d (col0 (concat (map snd (first :: rest)))) /\
    col1 (snd comb) = sort1d (col1 (concat (map snd (first :: rest)))).
Proof.
  intros E. unfold Scanner.comb_scans. rewrite E, fold_append.
  eexists. split; [reflexivity|]. simpl.
  now rewrite !np_sort_axis0_col0, !np_sort_axis0_col1.
Qed.

(** The angle column of a combined scan is ascending, and it holds the
    angles that were added, each as often as it was added. *)
Lemma comb_scans_angles (self : Scanner.t) comb :
  Scanner.comb_scans self = Ok comb ->
  ascending (col0 (fst comb)) /\
  Permutation (col0 (concat (map fst (Scanner.scans self)))) (col0 (fst comb)).
Proof.
  destruct (Scanner.scans self) as [|first rest] eqn:E.
  - unfold Scanner.comb_scans. rewrite E. discriminate.
  - destruct (comb_scans_columns self first rest E) as (c & Hc & H0 & _).
    rewrite Hc. intros [= <-]. rewrite H0. split.
    + apply sort1d_ascending.
    + apply sort1d_perm.
Qed.

End Combined.

(** ** The segmentation loop *)

Section Segmenter.

Import Scanner.

Variable comb : scan_data.

Let ir := fst comb.
Let n := length ir.

Lemma loop_body_in_step st rst i :
  in_step comb st rst -> in_step comb (loop_body comb st i) (ranges_body ir rst i).
Proof.
  destruct st as [sd si ed ei ol], rst as [rsd rsi rr].
  unfold in_step; simpl. intros (Hs & Hi & Ho); subst sd si ol.
  unfold loop_body, ranges_body; simpl. fold ir.
  destruct rsd as [sd|].
  - rewrite andb_false_r.
    destruct (isnan (snd (row ir i)) || (i =? length (np_sub_scalar ir (of_Z 1))))%nat.
    + destruct (gtb (sub (fst (row ir i)) sd) min_width); simpl; repeat split.
      now rewrite map_app.
    + simpl; repeat split.
  - rewrite andb_true_r.
    destruct (isnan (snd (row ir i))); simpl; repeat split.
Qed.

Lemma fold_in_step (idx : list nat) st rst :
  in_step comb st rst ->
  in_step comb (fold_left (loop_body comb) idx st) (fold_left (ranges_body ir) idx rst).
Proof.
  revert st rst. induction idx as [|i idx IH]; simpl; intros st rst H; auto.
  apply IH. now apply loop_body_in_step.
Qed.

(** The objects returned are the slices at the recorded index ranges. *)
Lemma segment_cut : segment comb = map (cut comb) (cluster_ranges ir).
Proof.
  unfold segment, cluster_ranges. fold ir.
  apply (fold_in_step (seq 0 (length ir)) loop_init ranges_init).
  repeat split.
Qed.

Lemma ordered_from_snoc lo rs s e :
  ordered_from lo rs -> Forall (fun r => (snd r < s)%nat) rs ->
  (lo <= s)%nat -> (s < e)%nat -> ordered_from lo (rs ++ [(s, e)]).
Proof.
  revert lo. induction rs as [|[s1 e1] rs IH]; simpl; intros lo Ho Hf Hlo Hse.
  - auto.
  - destruct Ho as (H1 & H2 & H3). inversion Hf as [|? ? Hx Hf']; subst.
    simpl in Hx. split; [exact H1|]. split; [exact H2|]. apply IH; auto.
Qed.

Lemma length_np_sub_scalar a c : length (np_sub_scalar a c) = length a.
Proof. apply length_map. Qed.

Lemma inv_step k st :
  (k < n)%nat -> inv ir k st -> inv ir (S k) (ranges_body ir st k).
Proof.
  intros Hk (Ho & Hr & Hs). unfold ranges_body.
  rewrite length_np_sub_scalar. fold n.
  replace (k =? n)%nat with false by (symmetry; apply Nat.eqb_neq; lia).
  rewrite orb_false_r.
  destruct (r_start_deg st) as [a|] eqn:Ea.
  - rewrite andb_false_r. destruct Hs as (Hi & Ha & Hv & Hf).
    destruct (isnan (snd (row ir k))) eqn:En.
    + destruct (gtb (sub (fst (row ir k)) a) min_width) eqn:Ew.
      * unfold inv; simpl. repeat split.
        -- apply ordered_from_snoc; auto. lia.
        -- apply Forall_app. split; [exact Hr|]. constructor; [|constructor].
           unfold range_ok, radius_at, angle_at; simpl. subst a. auto.
        -- apply Forall_app. split.
           ++ eapply Forall_impl; [|exact Hf]. simpl. intros; lia.
           ++ constructor; [simpl; lia|constructor].
      * unfold inv; simpl. repeat split; auto.
        eapply Forall_impl; [|exact Hf]. simpl. intros; lia.
    + unfold inv. rewrite Ea. repeat split; auto.
  - rewrite andb_true_r.
    destruct (isnan (snd (row ir k))) eqn:En; simpl.
    + unfold inv. rewrite Ea. repeat split; auto.
      eapply Forall_impl; [|exact Hs]. simpl. intros; lia.
    + unfold inv; simpl. repeat split; auto.
Qed.

Lemma inv_prefix k :
  (k <= n)%nat -> inv ir k (fold_left (ranges_body ir) (seq 0 k) ranges_init).
Proof.
  induction k as [|k IH]; intros Hk.
  - simpl. unfold inv; simpl. auto.
  - rewrite seq_S, fold_left_app. simpl. apply inv_step; [lia|]. apply IH. lia.
Qed.

Lemma cluster_ranges_ordered : ordered_from 0 (cluster_ranges ir).
Proof. apply (inv_prefix n). unfold n; lia. Qed.

Lemma cluster_ranges_ok : Forall (range_ok ir) (cluster_ranges ir).
Proof. apply (inv_prefix n). unfold n; lia. Qed.

End Segmenter.

(** ** What the segmenter emits *)

Section Clusters.

Import Scanner.

Lemma ordered_from_In lo rs r :
  ordered_from lo rs -> In r rs -> (lo <= fst r < snd r)%nat.
Proof.
  revert lo. induction rs as [|[s e] rs IH]; simpl; intros lo Ho Hin; [tauto|].
  destruct Ho as (H1 & H2 & H3). destruct Hin as [<-|Hin]; simpl; [lia|].
  specialize (IH _ H3 Hin). lia.
Qed.

Lemma ordered_from_nth lo rs i j d :
  ordered_from lo rs -> (i < j < length rs)%nat ->
  (snd (nth i rs d) < fst (nth j rs d))%nat.
Proof.
  revert lo i j. induction rs as [|[s e] rs IH]; simpl; intros lo i j Ho Hij; [lia|].
  destruct Ho as (H1 & H2 & H3). destruct j as [|j]; [lia|]. destruct i as [|i].
  - simpl. assert (In (nth j rs d) rs) as Hin by (apply nth_In; lia).
    pose proof (ordered_from_In _ _ _ H3 Hin). lia.
  - apply (IH (S e)); [exact H3|lia].
Qed.

Lemma gtb_sub_Fin a b w :
  gtb (sub a b) (Fin w) = true ->
  exists x y, a = Fin x /\ b = Fin y /\ (w < x - y)%Q.
Proof.
  destruct a as [|x], b as [|y]; simpl; try discriminate.
  intros H. exists x, y. repeat split.
  apply negb_true_iff in H. apply Qnot_le_lt. intros L.
  apply Qle_bool_iff in L. congruence.
Qed.

Lemma angle_at_col0 ir i : angle_at ir i = nth i (col0 ir) NaN.
Proof. unfold angle_at, row, col0. now rewrite <- (map_nth fst). Qed.

Lemma radius_at_col1 ir i : radius_at ir i = nth i (col1 ir) NaN.
Proof. unfold radius_at, row, col1. now rewrite <- (map_nth snd). Qed.

(** A run that is still open when the array ends is never emitted: every
    emitted range ends at a gap, so without a gap nothing is emitted,
    however wide the run. *)
Lemma segment_without_gap (comb : scan_data) :
  Forall (fun r => isnan r = false) (col1 (fst comb)) -> segment comb = [].
Proof.
  intros Hv. rewrite segment_cut.
  pose proof (cluster_ranges_ok comb) as Hok.
  destruct (cluster_ranges (fst comb)) as [|r rs]; [reflexivity|].
  inversion Hok as [|? ? (Hn & _ & Hg & _) _]; subst.
  rewrite radius_at_col1 in Hg. rewrite Forall_forall in Hv.
  rewrite Hv in Hg; [discriminate|]. apply nth_In.
  unfold col1. now rewrite length_map.
Qed.

(** Without a valid reading no run is ever opened. *)
Lemma segment_all_gap (comb : scan_data) :
  Forall (fun r => isnan r = true) (col1 (fst comb)) -> segment comb = [].
Proof.
  intros Hv. rewrite segment_cut.
  pose proof (cluster_ranges_ok comb) as Hok.
  destruct (cluster_ranges (fst comb)) as [|r rs]; [reflexivity|].
  inversion Hok as [|? ? (_ & Hs & _) _]; subst.
  rewrite radius_at_col1 in Hs.
  destruct (Nat.lt_ge_cases (fst r) (length (col1 (fst comb)))) as [L|L].
  - rewrite Forall_forall in Hv. rewrite Hv in Hs; [discriminate|].
    now apply nth_In.
  - rewrite nth_overflow in Hs by exact L. discriminate.
Qed.

End Clusters.

(** ** Claims about the Scanner *)

(** C1, evaluated on one batch holding (10, 5) and (20, 3): the combined
    IR scan is [(10, 3); (20, 5)].  Its angles are ascending, but each
    radius has left its angle: the sample (10, 3) was never added. *)
Theorem comb_scans_breaks_pairs :
  Scanner.comb_scans (Scanner.mk [two_samples])
  = Ok ([(of_Z 10, of_Z 3); (of_Z 20, of_Z 5)],
        [(of_Z 10, of_Z 30); (of_Z 20, of_Z 50)]) /\
  ~ In (of_Z 10, of_Z 3) (fst two_samples).
Proof.
  split; [reflexivity|].
  simpl. intros [H|[H|[]]]; discriminate.
Qed.

(** C4, evaluated on a scan that ends inside a run of valid readings 20
    degrees wide: the run is not flushed, no cluster is emitted. *)
Theorem open_run_not_flushed :
  Scanner.find_obj_clouds (Scanner.mk [open_run]) = Ok [] /\
  gtb (Scanner.angular_span (fst open_run)) Scanner.min_width = true.
Proof. split; reflexivity. Qed.

(** The index ranges recorded on an array with ascending angles: at each
    range [(s, e)] the angle at [e] exceeds the angle at [s] by more than
    [min_width], every range ends before the next one starts, and the
    start angles are strictly increasing. *)
Lemma cluster_ranges_wide_ordered (ir : ndarray) :
  ascending (col0 ir) ->
  let rs := Scanner.cluster_ranges ir in
  (forall s e, In (s, e) rs ->
     (s < e < length ir)%nat /\
     gtb (sub (Scanner.angle_at ir e) (Scanner.angle_at ir s)) Scanner.min_width = true) /\
  (forall i j, (i < j < length rs)%nat ->
     (snd (nth i rs (0, 0)) < fst (nth j rs (0, 0)))%nat) /\
  (forall i j, (i < j < length rs)%nat ->
     ltb (Scanner.angle_at ir (fst (nth i rs (0, 0))%nat))
         (Scanner.angle_at ir (fst (nth j rs (0, 0))%nat)) = true).
Proof.
  intros Hasc rs.
  pose proof (cluster_ranges_ordered (ir, [])) as Hord.
  pose proof (cluster_ranges_ok (ir, [])) as Hok.
  simpl in Hord, Hok. fold rs in Hord, Hok.
  rewrite Forall_forall in Hok.
  split; [|split].
  - intros s e Hin. destruct (Hok _ Hin) as (Hn & _ & _ & Hw).
    pose proof (ordered_from_In _ _ _ Hord Hin) as Hse. simpl in *.
    repeat split; auto; lia.
  - intros i j Hij. eapply ordered_from_nth; eauto.
  - intros i j Hij.
    pose proof (ordered_from_nth 0 rs i j (0, 0)%nat Hord Hij) as Hlt.
    assert (In (nth i rs (0, 0)%nat) rs) as Hi by (apply nth_In; lia).
    assert (In (nth j rs (0, 0)%nat) rs) as Hj by (apply nth_In; lia).
    destruct (nth i rs (0, 0)%nat) as [si ei], (nth j rs (0, 0)%nat) as [sj ej].
    simpl in *.
    destruct (Hok _ Hi) as (_ & _ & _ & Hwi).
    destruct (Hok _ Hj) as (Hnj & _ & _ & Hwj). simpl in *.
    pose proof (ordered_from_In _ _ _ Hord Hj) as Hsej. simpl in Hsej.
    assert (sort_leb (Scanner.angle_at ir ei) (Scanner.angle_at ir sj) = true) as Hs.
    { rewrite !angle_at_col0.
      apply ascending_nth; auto. unfold col0. rewrite length_map. lia. }
    apply gtb_sub_Fin in Hwi. destruct Hwi as (x & y & Ex & Ey & Hxy).
    apply gtb_sub_Fin in Hwj. destruct Hwj as (x' & z & Ex' & Ez & Hxz).
    rewrite Ex, Ez in Hs. rewrite Ey, Ez. simpl in Hs |- *.
    apply Qle_bool_iff in Hs. apply negb_true_iff.
    destruct (Qle_bool z y) eqn:E; [|reflexivity].
    apply Qle_bool_iff in E. unfold inject_Z in Hxy. exfalso. clear Hxz. Lqa.lra.
Qed.




(** C9 as stated fails: with no scan added, [find_obj_clouds] raises. *)
Lemma find_obj_clouds_no_scans_raises :
  Scanner.find_obj_clouds Scanner.init = Raise NotImplementedError /\
  Scanner.find_obj_clouds Scanner.init <> Ok [].
Proof. split; [reflexivity|discriminate]. Qed.

(** C9, as amended: when every IR radius added so far is a gap,
    [find_obj_clouds] returns the empty list provided at least one scan
    (possibly of no samples) was added, and raises NotImplementedError when
    none was. *)
Theorem find_obj_clouds_all_gaps (self : Scanner.t) :
  (forall sc r, In sc (Scanner.scans self) -> In r (fst sc) -> isnan (snd r) = true) ->
  Scanner.find_obj_clouds self =
  match Scanner.scans self with
  | [] => Raise NotImplementedError
  | _ :: _ => Ok []
  end.
Proof.
  intros Hgap. unfold Scanner.find_obj_clouds.
  destruct (Scanner.scans self) as [|first rest] eqn:E.
  - unfold Scanner.comb_scans. now rewrite E.
  - destruct (comb_scans_columns self first rest E) as (comb & Hc & _ & H1 & _).
    rewrite Hc. simpl. f_equal. apply segment_all_gap.
    rewrite H1. eapply Permutation_Forall; [apply sort1d_perm|].
    unfold col1. apply Forall_forall. intros x Hx.
    apply in_map_iff in Hx. destruct Hx as (r & <- & Hr).
    apply in_concat in Hr. destruct Hr as (a & Ha & Hr).
    apply in_map_iff in Ha. destruct Ha as (sc & <- & Hsc).
    eapply Hgap; eauto.
Qed.

Lemma find_obj_clouds_all_gaps_witness :
  (forall sc r, In sc (Scanner.scans all_gaps) -> In r (fst sc) -> isnan (snd r) = true) /\
  Scanner.find_obj_clouds all_gaps = Ok [].
Proof.
  assert (forall sc r, In sc (Scanner.scans all_gaps) -> In r (fst sc) ->
                       isnan (snd r) = true) as H.
  { simpl. intros sc r [<-|[<-|[]]]; simpl; [|tauto].
    intros [<-|[<-|[]]]; reflexivity. }
  split; [exact H|]. exact (find_obj_clouds_all_gaps all_gaps H).
Defined.

(** ** Claims about the angles of a scan *)

Lemma scan_angles_up (start end_ : Z) :
  (start <= end_)%Z ->
  Rover.scan_angles start end_ =
  map (fun k => (start + Z.of_nat k)%Z) (seq 0 (Z.to_nat (end_ - start))).
Proof.
  intros H. unfold Rover.scan_angles, py_range, range_len.
  destruct (Z.leb_spec start end_) as [_|L]; [|lia]. simpl (0 <? 1)%Z. cbv iota.
  replace (if (start <? end_)%Z then Z.to_nat ((end_ - start - 1) / 1 + 1) else 0%nat)
    with (Z.to_nat (end_ - start)).
  - apply map_ext. intros k. lia.
  - destruct (Z.ltb_spec start end_) as [L|L].
    + rewrite Z.div_1_r. f_equal. lia.
    + replace (end_ - start)%Z with 0%Z by lia. reflexivity.
Qed.

(** When [start > end] the angles are [range(end, start, -1)], which is
    empty. *)
Lemma scan_angles_down (start end_ : Z) :
  (end_ < start)%Z -> Rover.scan_angles start end_ = [].
Proof.
  intros H. unfold Rover.scan_angles, py_range, range_len.
  destruct (Z.leb_spec start end_) as [L|_]; [lia|]. simpl (0 <? -1)%Z. cbv iota.
  destruct (Z.ltb_spec start end_) as [L|_]; [lia|]. reflexivity.
Qed.

(** C7, evaluated on [scan(180, 0)]: no angle is requested, although the
    descending sweep from 180 down to 0 is not empty. *)
Theorem scan_angles_180_0_empty : Rover.scan_angles 180 0 = [].
Proof. reflexivity. Qed.

(** C10: for [start <= end] the angles requested are [start], [start+1],
    ..., [end-1] in this order; an angle is requested exactly when it lies
    in [start, end), so [end] itself is never sampled. *)
Theorem scan_angles_exclude_end (start end_ : Z) :
  (start <= end_)%Z ->
  Rover.scan_angles start end_ =
    map (fun k => (start + Z.of_nat k)%Z) (seq 0 (Z.to_nat (end_ - start))) /\
  (forall a, In a (Rover.scan_angles start end_) <-> (start <= a < end_)%Z) /\
  ~ In end_ (Rover.scan_angles start end_).
Proof.
  intros H. pose proof (scan_angles_up start end_ H) as E.
  assert (forall a, In a (Rover.scan_angles start end_) <-> (start <= a < end_)%Z) as Hin.
  { intros a. rewrite E, in_map_iff. split.
    - intros (k & <- & Hk). apply in_seq in Hk. lia.
    - intros Ha. exists (Z.to_nat (a - start)). split; [lia|].
      apply in_seq. lia. }
  split; [exact E|]. split; [exact Hin|].
  intros Hend. apply Hin in Hend. lia.
Qed.

Lemma scan_angles_exclude_end_witness :
  (0 <= 180)%Z /\
  Rover.scan_angles 0 180 =
    map (fun k => (0 + Z.of_nat k)%Z) (seq 0 (Z.to_nat (180 - 0))) /\
  (forall a, In a (Rover.scan_angles 0 180) <-> (0 <= a < 180)%Z) /\
  ~ In 180%Z (Rover.scan_angles 0 180).
Proof.
  assert (0 <= 180)%Z as H by lia.
  split; [exact H|]. exact (scan_angles_exclude_end 0 180 H).
Defined.

(** ** Claims about the Environment *)

Section EnvironmentFacts.

Import Environment.

Lemma conv_radial_arr_map (self : t) (thetas rs : list R) :
  length thetas = length rs ->
  conv_radial_arr self thetas rs =
  Ok (map (fun tr => conv_radial self (fst tr) (snd tr)) (combine thetas rs)).
Proof.
  intros Hlen. unfold conv_radial_arr.
  rewrite (proj2 (Nat.eqb_eq _ _) Hlen). simpl. f_equal.
  unfold zip_with. revert rs Hlen.
  induction thetas as [|th thetas IH]; destruct rs as [|r rs]; simpl;
    try discriminate; [reflexivity|].
  intros [= Hlen]. rewrite <- (IH rs Hlen). reflexivity.
Qed.

Lemma conv_radial_arr_mismatch (self : t) (thetas rs : list R) :
  length thetas <> length rs -> conv_radial_arr self thetas rs = Raise ValueError.
Proof.
  intros Hlen. unfold conv_radial_arr.
  now rewrite (proj2 (Nat.eqb_neq _ _) Hlen).
Qed.

Lemma combine_self {A} (l : list A) : combine l l = map (fun x => (x, x)) l.
Proof. induction l as [|x l IH]; simpl; [reflexivity|now rewrite IH]. Qed.

Lemma combine_fst_snd {A B} (l : list (A * B)) : combine (map fst l) (map snd l) = l.
Proof. induction l as [|[a b] l IH]; simpl; [reflexivity|now rewrite IH]. Qed.

(** What [add_scan] stores: the IR points are [conv_radial] of (angle,
    radius); the sonar points are [conv_radial] of (angle, angle). *)
Lemma add_scan_points (self : t) (ir_data sonar_data : rarray) :
  exists self',
    add_scan self (ir_data, sonar_data) = Ok self' /\
    ir_obs self' =
      ir_obs self ++ [map (fun row => conv_radial self (fst row) (snd row)) ir_data] /\
    sonar_obs self' =
      sonar_obs self ++ [map (fun row => conv_radial self (fst row) (fst row)) sonar_data].
Proof.
  unfold add_scan.
  rewrite !conv_radial_arr_map by (now rewrite !length_map).
  simpl. eexists. split; [reflexivity|]. simpl.
  rewrite combine_fst_snd, combine_self, !map_map. simpl. split; reflexivity.
Qed.

(** What [finalize_contours] does to the two lists of contours. *)
Lemma finalize_contours_lists (self : t) :
  contours (state_of finalize_contours self) = contours self ++ volatile_contours self /\
  volatile_contours (state_of finalize_contours self) = volatile_contours self.
Proof. split; reflexivity. Qed.

End EnvironmentFacts.

(** C2, evaluated on [one_echo] at the initial pose: the IR point stored is
    [conv_radial 0 50], but the sonar point stored is [conv_radial 0 0],
    the rover's own location, not [conv_radial 0 50]. *)
Theorem add_scan_sonar_radius_lost :
  exists env',
    Environment.add_scan Environment.init one_echo = Ok env' /\
    Environment.ir_obs env' = [[Environment.conv_radial Environment.init 0 50]] /\
    Environment.sonar_obs env' = [[Environment.conv_radial Environment.init 0 0]] /\
    Environment.conv_radial Environment.init 0 0 = (0, 0) /\
    Environment.conv_radial Environment.init 0 50 = (50, 0) /\
    Environment.sonar_obs env' <> [[Environment.conv_radial Environment.init 0 50]].
Proof.
  assert (Environment.conv_radial Environment.init 0 0 = (0, 0)) as H0.
  { unfold Environment.conv_radial; simpl. f_equal; Lra.lra. }
  assert (Environment.conv_radial Environment.init 0 50 = (50, 0)) as H50.
  { unfold Environment.conv_radial; simpl.
    replace ((0 - 90 + 90) * (PI / 180)) with 0 by Lra.lra.
    rewrite cos_0, sin_0. f_equal; Lra.lra. }
  destruct (add_scan_points Environment.init (fst one_echo) (snd one_echo))
    as (env' & E & Hir & Hsonar).
  exists env'. split; [exact E|]. simpl in Hir, Hsonar.
  repeat split; auto.
  rewrite Hsonar, H0, H50. intros [= H]. Lra.lra.
Qed.

(** C3, evaluated on [one_volatile]: the first call leaves the volatile
    contour in place, and the second call adds it to the finalized contours
    once more. *)
Theorem finalize_contours_twice :
  let c : Line2D := ([0; 1], [0; 1]) in
  let env1 := state_of Environment.finalize_contours one_volatile in
  let env2 := state_of Environment.finalize_contours env1 in
  Environment.contours env1 = [c] /\
  Environment.volatile_contours env1 = [c] /\
  Environment.contours env2 = [c; c] /\
  Environment.contours env2 <> Environment.contours env1.
Proof. simpl. repeat split. discriminate. Qed.



Section InBinary64.

Import PrimFloat.
Local Open Scope float_scope.

(** Whatever [np.cos] and [np.sin] are, the angle they are applied to by
    [move(100)] at heading 90 is [half_pi], the double below pi/2. *)
Lemma move_100_argument (np_cos np_sin : float -> float) :
  Binary64.move_loc np_cos np_sin (0, 0) 90 100 =
  (100 * np_cos Binary64.half_pi + 0, 100 * np_sin Binary64.half_pi + 0).
Proof. reflexivity. Qed.


End InBinary64.

(** ** Claims about reorientation *)

Section Reorientation.

Variable oi_move : R -> R -> R * Z.
Variable full_distance : Z.

(** A log that opens with the replacement of the scanner and the return of
    [finalize_contours] has every pose assignment after both. *)
Lemma finalized_before_pose_prefix (rest : list event) :
  finalized_before_pose (EvScannerReplaced :: EvContoursFinalized :: rest).
Proof.
  intros pre e post H Hm.
  destruct pre as [|x [|y pre]]; simpl in H; inversion H; subst.
  - discriminate Hm.
  - discriminate Hm.
  - exists [], [], pre. reflexivity.
Qed.

(** The finalize-for-reorientation protocol: what it logs, and what it
    leaves of the rover. *)
Lemma finalize_for_reorientation_run (self : Rover.t) :
  events_of Rover._finalize_for_reorientation self =
    [EvScannerReplaced; EvContoursFinalized] /\
  Rover.scanner (state_of Rover._finalize_for_reorientation self) = Scanner.init /\
  Environment._loc (Rover.env (state_of Rover._finalize_for_reorientation self)) =
    Environment._loc (Rover.env self) /\
  Environment._direction (Rover.env (state_of Rover._finalize_for_reorientation self)) =
    Environment._direction (Rover.env self).
Proof. repeat split. Qed.

(** The log of [Rover.move]. *)
Lemma move_events (self : Rover.t) (dist speed : R) :
  exists c l danger,
    events_of (Rover.move oi_move full_distance dist speed) self =
    [EvScannerReplaced; EvContoursFinalized; EvOiMove dist speed;
     EvBreadcrumb c; EvLoc l] ++ danger /\
    Forall (fun e => is_pose_mutation e = false) danger.
Proof.
  unfold events_of, Rover.move, bind.
  destruct (oi_move dist speed) as [d stop_reason].
  destruct (negb (stop_reason =? full_distance)%Z); simpl;
    do 3 eexists; (split; [reflexivity|]); repeat constructor.
Qed.

(** The log of [Rover.rotate]. *)
Lemma rotate_events (self : Rover.t) (delta : R) :
  events_of (Rover.rotate delta) self =
  [EvScannerReplaced; EvContoursFinalized; EvOiRotate delta;
   EvDirection (Environment._direction (Rover.env self) + delta)].
Proof. reflexivity. Qed.

End Reorientation.

(** C5: in every run of [Rover.move] and of [Rover.rotate], whatever the
    robot answers, the scanner is replaced by a fresh one and
    [finalize_contours] has returned before the location or the direction
    is assigned; both calls do assign the pose, the protocol itself leaves
    it as it was, and the scanner they leave is the fresh one. *)
Theorem finalize_before_reorientation
  (oi_move : R -> R -> R * Z) (full_distance : Z)
  (self : Rover.t) (dist speed delta : R) :
  let moved := Rover.move oi_move full_distance dist speed in
  let rotated := Rover.rotate delta in
  finalized_before_pose (events_of moved self) /\
  finalized_before_pose (events_of rotated self) /\
  existsb is_pose_mutation (events_of moved self) = true /\
  existsb is_pose_mutation (events_of rotated self) = true /\
  Rover.scanner (state_of moved self) = Scanner.init /\
  Rover.scanner (state_of rotated self) = Scanner.init /\
  Environment._loc (Rover.env (state_of Rover._finalize_for_reorientation self)) =
    Environment._loc (Rover.env self) /\
  Environment._direction (Rover.env (state_of Rover._finalize_for_reorientation self)) =
    Environment._direction (Rover.env self).
Proof.
  intros moved rotated.
  destruct (move_events oi_move full_distance self dist speed)
    as (c & l & danger & Em & _).
  fold moved in Em.
  pose proof (rotate_events self delta) as Er. fold rotated in Er.
  split; [rewrite Em; apply finalized_before_pose_prefix|].
  split; [rewrite Er; apply finalized_before_pose_prefix|].
  split; [rewrite Em; reflexivity|].
  split; [rewrite Er; reflexivity|].
  split.
  { unfold moved, state_of, Rover.move, bind.
    destruct (oi_move dist speed) as [d stop_reason].
    destruct (negb (stop_reason =? full_distance)%Z); reflexivity. }
  repeat split.
Qed.

(** * Further properties *)

(** ** The Scanner *)

Section ScannerMore.

Import Scanner.

(** In an ascending column the valid entries come first: the entry at
    index [i] is valid exactly when [i] is below the number of valid
    entries. *)
Lemma ascending_valid_first (l : list float64) (i : nat) :
  ascending l ->
  isnan (nth i l NaN) =
  negb (i <? length (filter (fun r => negb (isnan r)) l))%nat.
Proof.
  unfold ascending. intros H. revert i.
  induction H as [|x l Hl IH Hx]; intros i.
  - destruct i; reflexivity.
  - destruct x as [|q]; simpl.
    + assert (Forall (fun y => isnan y = true) l) as Hn.
      { eapply Forall_impl; [|exact Hx]. intros [|b]; simpl; congruence. }
      replace (filter (fun r => negb (isnan r)) l) with (@nil float64).
      * destruct i as [|i]; [reflexivity|]. simpl.
        destruct (Nat.lt_ge_cases i (length l)) as [L|L].
        -- rewrite Forall_forall in Hn. apply Hn. now apply nth_In.
        -- now rewrite nth_overflow.
      * symmetry. clear -Hn. induction Hn as [|y l Hy _ IHn]; simpl; auto.
        now rewrite Hy.
    + destruct i as [|i]; [reflexivity|]. apply IH.
Qed.

Lemma radius_valid_first (ir : ndarray) (i : nat) :
  ascending (col1 ir) ->
  isnan (radius_at ir i) = negb (i <? valid_count ir)%nat.
Proof.
  intros H. rewrite radius_at_col1. now apply ascending_valid_first.
Qed.

Lemma valid_count_le (ir : ndarray) : (valid_count ir <= length ir)%nat.
Proof.
  unfold valid_count, col1.
  rewrite <- (length_map snd ir). apply filter_length_le.
Qed.

Variable ir : ndarray.

Let n := length ir.
Let k := valid_count ir.

Hypothesis Hasc : ascending (col1 ir).

(** A valid reading inside the array leaves an open run open. *)
Lemma body_keeps_open (a : float64) (s i : nat) (rs : list (nat * nat)) :
  isnan (snd (row ir i)) = false -> (i < n)%nat ->
  ranges_body ir (mkRanges (Some a) s rs) i = mkRanges (Some a) s rs.
Proof.
  intros Hv Hi. unfold ranges_body. cbn [r_start_deg].
  rewrite Hv, length_np_sub_scalar. fold n.
  replace (i =? n)%nat with false by (symmetry; apply Nat.eqb_neq; lia).
  reflexivity.
Qed.

(** While the readings are valid the first run stays open. *)
Lemma run_open_below j :
  (j < k)%nat ->
  fold_left (ranges_body ir) (seq 0 (S j)) ranges_init =
  mkRanges (Some (angle_at ir 0)) 0 [].
Proof.
  assert (forall i, i < k -> isnan (snd (row ir i)) = false)%nat as Hv.
  { intros i Hi. change (snd (row ir i)) with (radius_at ir i).
    rewrite radius_valid_first by exact Hasc. fold k.
    now rewrite (proj2 (Nat.ltb_lt _ _) Hi). }
  pose proof (valid_count_le ir) as Hk. fold k n in Hk.
  induction j as [|j IH]; intros Hj.
  - simpl. unfold ranges_body; simpl. rewrite Hv by exact Hj. reflexivity.
  - rewrite seq_S, fold_left_app, IH by lia. cbn [fold_left Nat.add].
    apply body_keeps_open; [apply Hv; exact Hj|lia].
Qed.

(** Over gaps, with no run open, nothing changes. *)
Lemma gaps_skipped (idx : list nat) (rs : list (nat * nat)) (s : nat) :
  Forall (fun i => isnan (snd (row ir i)) = true) idx ->
  fold_left (ranges_body ir) idx (mkRanges None s rs) = mkRanges None s rs.
Proof.
  induction 1 as [|i idx Hi _ IH]; simpl; [reflexivity|].
  unfold ranges_body at 2; simpl. rewrite Hi. simpl. exact IH.
Qed.

Lemma gaps_from_k len :
  Forall (fun i => isnan (snd (row ir i)) = true) (seq k len).
Proof.
  apply Forall_forall. intros i Hi. apply in_seq in Hi.
  change (snd (row ir i)) with (radius_at ir i).
  rewrite radius_valid_first by exact Hasc. fold k.
  replace (i <? k)%nat with false; [reflexivity|].
  symmetry. apply Nat.ltb_ge. lia.
Qed.

(** The ranges recorded on an array whose radius column is ascending. *)
Lemma cluster_ranges_valid_first :
  cluster_ranges ir =
  if (0 <? k)%nat && (k <? n)%nat &&
     gtb (sub (angle_at ir k) (angle_at ir 0)) min_width
  then [(0, k)%nat] else [].
Proof.
  pose proof (valid_count_le ir) as Hk. fold k n in Hk.
  unfold cluster_ranges. fold n.
  destruct k as [|k'] eqn:Ek.
  - simpl. fold ranges_init. unfold ranges_init.
    rewrite gaps_skipped; [reflexivity|].
    rewrite <- Ek. apply gaps_from_k.
  - destruct (Nat.eq_dec (S k') n) as [En|Hn].
    + rewrite <- En. rewrite run_open_below by lia.
      rewrite Nat.ltb_irrefl. reflexivity.
    + replace n with (S k' + (S (n - S k' - 1)))%nat by lia.
      rewrite seq_app, fold_left_app, run_open_below by lia.
      replace (S k' <? S k' + S (n - S k' - 1))%nat with true
        by (symmetry; apply Nat.ltb_lt; lia).
      simpl seq. simpl fold_left at 1.
      assert (isnan (snd (row ir (S k'))) = true) as Hg.
      { pose proof (gaps_from_k 1) as G. rewrite Ek in G. simpl in G.
        now inversion G. }
      unfold ranges_body at 2; simpl. rewrite Hg. simpl.
      unfold angle_at.
      destruct (gtb (sub (fst (row ir (S k'))) (fst (row ir 0))) min_width);
        rewrite gaps_skipped; try reflexivity;
        rewrite <- Ek at 1; replace (S k) with (k + 1)%nat by lia.
      * pose proof (gaps_from_k (1 + (n - S k' - 1))) as G.
        rewrite seq_app in G. apply Forall_app in G. apply G.
      * pose proof (gaps_from_k (1 + (n - S k' - 1))) as G.
        rewrite seq_app in G. apply Forall_app in G. apply G.
Qed.

End ScannerMore.

Section GapFree.

Import Scanner.

Variable ir : ndarray.

Lemma inv_gap_free_step k st :
  inv_gap_free ir k st -> inv_gap_free ir (S k) (ranges_body ir st k).
Proof.
  destruct st as [sd s rs]. unfold inv_gap_free; simpl. intros (Hr & Ho).
  unfold ranges_body; simpl.
  destruct sd as [a|]; simpl.
  - rewrite andb_false_r.
    destruct (isnan (snd (row ir k))) eqn:En; simpl.
    + destruct (gtb (sub (fst (row ir k)) a) min_width); simpl.
      * split; [|exact I]. apply Forall_app. split; [exact Hr|].
        constructor; [|constructor]. exact Ho.
      * split; [exact Hr|exact I].
    + destruct (k =? length (np_sub_scalar ir (of_Z 1)))%nat.
      * destruct (gtb (sub (fst (row ir k)) a) min_width); simpl.
        -- split; [|exact I]. apply Forall_app. split; [exact Hr|].
           constructor; [|constructor]. exact Ho.
        -- split; [exact Hr|exact I].
      * simpl. split; [exact Hr|]. intros i Hi.
        destruct (Nat.eq_dec i k) as [->|Hne]; [exact En|]. apply Ho. lia.
  - rewrite andb_true_r.
    destruct (isnan (snd (row ir k))) eqn:En; simpl.
    + split; [exact Hr|exact I].
    + split; [exact Hr|]. intros i Hi.
      replace i with k by lia. exact En.
Qed.

Lemma inv_gap_free_prefix k :
  inv_gap_free ir k (fold_left (ranges_body ir) (seq 0 k) ranges_init).
Proof.
  induction k as [|k IH].
  - simpl. split; [constructor|exact I].
  - rewrite seq_S, fold_left_app. simpl. now apply inv_gap_free_step.
Qed.

Lemma cluster_ranges_gap_free : Forall (gap_free ir) (cluster_ranges ir).
Proof. apply (inv_gap_free_prefix (length ir)). Qed.

End GapFree.

Lemma In_slice {A} (a : list A) (s e : nat) (x d : A) :
  In x (slice a s e) ->
  exists i, (s <= i < e)%nat /\ (i < length a)%nat /\ nth i a d = x.
Proof.
  unfold slice. intros H.
  destruct (In_nth _ _ d H) as (j & Hj & Hx).
  rewrite length_firstn, length_skipn in Hj.
  rewrite nth_firstn in Hx.
  destruct (Nat.ltb_spec j (e - s)) as [L|L]; [|lia].
  rewrite nth_skipn in Hx. exists (s + j)%nat. repeat split; auto; lia.
Qed.

Lemma length_slice {A} (a : list A) (s e : nat) :
  length (slice a s e) = Nat.min (e - s) (length a - s).
Proof. unfold slice. now rewrite length_firstn, length_skipn. Qed.

Lemma filter_length_perm {A} (f : A -> bool) (l l' : list A) :
  Permutation l l' -> length (filter f l) = length (filter f l').
Proof.
  induction 1 as [|x l l' _ IH|x y l|l l' l'' _ IH1 _ IH2]; simpl; auto.
  - destruct (f x); simpl; congruence.
  - destruct (f x), (f y); reflexivity.
  - congruence.
Qed.

(** X2: the combined scan has, in each channel, as many rows as all added
    scans together; each of its columns is ascending in the order of
    [np.sort] (NaN last) and holds exactly the entries added to that
    column. *)
Theorem comb_scans_sorted_columns (self : Scanner.t) (comb : scan_data) :
  Scanner.comb_scans self = Ok comb ->
  let ir_in := concat (map fst (Scanner.scans self)) in
  let sonar_in := concat (map snd (Scanner.scans self)) in
  length (fst comb) = length ir_in /\
  length (snd comb) = length sonar_in /\
  ascending (col0 (fst comb)) /\ Permutation (col0 ir_in) (col0 (fst comb)) /\
  ascending (col1 (fst comb)) /\ Permutation (col1 ir_in) (col1 (fst comb)) /\
  ascending (col0 (snd comb)) /\ Permutation (col0 sonar_in) (col0 (snd comb)) /\
  ascending (col1 (snd comb)) /\ Permutation (col1 sonar_in) (col1 (snd comb)).
Proof.
  destruct (Scanner.scans self) as [|first rest] eqn:E.
  - unfold Scanner.comb_scans. rewrite E. discriminate.
  - destruct (comb_scans_columns self first rest E) as (c & Hc & H0 & H1 & H2 & H3).
    rewrite Hc. intros [= <-] ir_in sonar_in.
    assert (length (fst c) = length ir_in) as L1.
    { rewrite <- (length_map fst (fst c)). fold (col0 (fst c)).
      rewrite H0, sort1d_length. unfold col0. now rewrite length_map. }
    assert (length (snd c) = length sonar_in) as L2.
    { rewrite <- (length_map fst (snd c)). fold (col0 (snd c)).
      rewrite H2, sort1d_length. unfold col0. now rewrite length_map. }
    rewrite H0, H1, H2, H3.
    repeat split; auto using sort1d_ascending, sort1d_perm.
Qed.

Lemma comb_scans_sorted_columns_witness :
  Scanner.comb_scans (Scanner.mk [two_samples; narrow_run]) =
    Ok ([(of_Z 10, of_Z 3); (of_Z 10, of_Z 5); (of_Z 20, of_Z 5); (of_Z 20, NaN)],
        [(of_Z 10, of_Z 30); (of_Z 10, of_Z 30); (of_Z 20, of_Z 50); (of_Z 20, of_Z 50)]) /\
  length [(of_Z 10, of_Z 3); (of_Z 10, of_Z 5); (of_Z 20, of_Z 5); (of_Z 20, NaN)] =
  length (concat (map fst (Scanner.scans (Scanner.mk [two_samples; narrow_run])))).
Proof.
  split; [reflexivity|].
  exact (proj1 (comb_scans_sorted_columns (Scanner.mk [two_samples; narrow_run]) _ eq_refl)).
Defined.

(** X3: because [np.sort] moves the gaps of the radius column behind the
    valid radii, [find_obj_clouds] never returns more than one object; and
    an object it returns is the first [k] rows of both combined channels,
    [k] being the number of valid IR radii added, which happens only when
    there is a valid radius, there is a gap, and the angle in row [k]
    exceeds the angle in row 0 by more than 3. *)
Theorem find_obj_clouds_at_most_first_rows (self : Scanner.t) (comb : scan_data) :
  Scanner.comb_scans self = Ok comb ->
  let ir := fst comb in
  let k := valid_count (concat (map fst (Scanner.scans self))) in
  exists objs,
    Scanner.find_obj_clouds self = Ok objs /\
    (length objs <= 1)%nat /\
    (forall obj, In obj objs ->
       obj = (firstn k (fst comb), firstn k (snd comb)) /\
       (0 < k < length ir)%nat /\
       gtb (sub (Scanner.angle_at ir k) (Scanner.angle_at ir 0)) Scanner.min_width = true).
Proof.
  intros Hc ir k.
  destruct (Scanner.scans self) as [|first rest] eqn:E.
  { unfold Scanner.comb_scans in Hc. rewrite E in Hc. discriminate. }
  destruct (comb_scans_columns self first rest E) as (c & Hc' & _ & H1 & _).
  rewrite Hc in Hc'. injection Hc' as <-.
  assert (ascending (col1 ir)) as Hasc.
  { unfold ir. rewrite H1. apply sort1d_ascending. }
  assert (valid_count ir = k) as Hk.
  { unfold k, valid_count, ir. rewrite H1. symmetry.
    apply filter_length_perm, sort1d_perm. }
  unfold Scanner.find_obj_clouds. rewrite Hc. simpl.
  eexists. split; [reflexivity|].
  rewrite segment_cut. fold ir.
  rewrite (cluster_ranges_valid_first ir Hasc), Hk.
  destruct (0 <? k)%nat eqn:K0; simpl; [|split; [lia|tauto]].
  destruct (k <? length ir)%nat eqn:K1; simpl; [|split; [lia|tauto]].
  destruct (gtb (sub (Scanner.angle_at ir k) (Scanner.angle_at ir 0))
                Scanner.min_width) eqn:W; simpl; [|split; [lia|tauto]].
  split; [lia|]. intros obj [<-|[]].
  apply Nat.ltb_lt in K0, K1. split; [|split; [lia|reflexivity]].
  unfold Scanner.cut, slice. simpl. now rewrite Nat.sub_0_r.
Qed.

Lemma find_obj_clouds_at_most_first_rows_witness :
  Scanner.comb_scans (Scanner.mk [two_samples; narrow_run]) = Ok merged_two_batches /\
  exists objs,
    Scanner.find_obj_clouds (Scanner.mk [two_samples; narrow_run]) = Ok objs /\
    (length objs <= 1)%nat /\
    (forall obj, In obj objs ->
       obj = (firstn 3 (fst merged_two_batches), firstn 3 (snd merged_two_batches)) /\
       (0 < 3 < length (fst merged_two_batches))%nat /\
       gtb (sub (Scanner.angle_at (fst merged_two_batches) 3)
                (Scanner.angle_at (fst merged_two_batches) 0))
           Scanner.min_width = true).
Proof.
  split; [reflexivity|].
  exact (find_obj_clouds_at_most_first_rows
           (Scanner.mk [two_samples; narrow_run]) merged_two_batches eq_refl).
Defined.

(** X4: on any combined scan, every object returned holds at least one IR
    row and no IR gap, and its sonar slice has as many rows as its IR slice
    whenever the two channels of the combined scan have equally many
    rows. *)
Theorem segment_objects_gap_free (comb : scan_data) :
  Forall (fun obj =>
            fst obj <> [] /\
            Forall (fun r => isnan (snd r) = false) (fst obj) /\
            (length (snd comb) = length (fst comb) ->
             length (snd obj) = length (fst obj)))
         (Scanner.segment comb).
Proof.
  rewrite segment_cut. apply Forall_forall. intros obj Hobj.
  apply in_map_iff in Hobj. destruct Hobj as ([s e] & <- & Hr).
  pose proof (cluster_ranges_ok comb) as Hok.
  pose proof (cluster_ranges_ordered comb) as Hord.
  pose proof (cluster_ranges_gap_free (fst comb)) as Hgf.
  rewrite Forall_forall in Hok, Hgf.
  destruct (Hok _ Hr) as (Hn & _). simpl in Hn.
  pose proof (ordered_from_In _ _ _ Hord Hr) as Hse. simpl in Hse.
  specialize (Hgf _ Hr). unfold Scanner.cut; simpl. split; [|split].
  - intros E. apply (f_equal (@length _)) in E.
    rewrite length_slice in E. simpl in E. lia.
  - apply Forall_forall. intros r Hin.
    destruct (In_slice _ _ _ _ (NaN, NaN) Hin) as (i & Hi & _ & <-).
    apply Hgf. simpl. exact Hi.
  - intros L. now rewrite !length_slice, L.
Qed.

Lemma segment_objects_gap_free_witness :
  length (snd narrow_run) = length (fst narrow_run) /\
  length (snd (hd ([], []) (Scanner.segment narrow_run))) =
  length (fst (hd ([], []) (Scanner.segment narrow_run))).
Proof.
  split; [reflexivity|].
  exact (proj2 (proj2 (Forall_inv (segment_objects_gap_free narrow_run))) eq_refl).
Defined.

(** ** The coordinate transform *)

Section Transform.

Import Environment.

(** [move] goes straight ahead: the offset of 90 in [conv_radial] cancels
    against the angle 90 that [move] passes. *)
Lemma conv_radial_90 (self : t) (dist : R) :
  conv_radial self 90 dist =
  (dist * cos (_direction self * (PI / 180)) + fst (_loc self),
   dist * sin (_direction self * (PI / 180)) + snd (_loc self)).
Proof.
  unfold conv_radial.
  replace (90 - 90 + _direction self) with (_direction self) by Lra.lra.
  reflexivity.
Qed.

End Transform.

(** X5: [conv_radial_arr] raises ValueError exactly when the two arrays
    differ in length, and otherwise returns, row by row, what
    [conv_radial] returns for the paired angle and radius. *)
Theorem conv_radial_arr_pointwise (self : Environment.t) (thetas rs : list R) :
  Environment.conv_radial_arr self thetas rs =
  if (length thetas =? length rs)%nat
  then Ok (map (fun tr => Environment.conv_radial self (fst tr) (snd tr))
               (combine thetas rs))
  else Raise ValueError.
Proof.
  destruct (Nat.eqb_spec (length thetas) (length rs)) as [E|E].
  - now apply conv_radial_arr_map.
  - now apply conv_radial_arr_mismatch.
Qed.

(** ** Moving and turning the Environment *)

(** X9: [Environment.move] translates the location by [dist] along the
    current direction, keeps the direction, appends one breadcrumb of
    radius 16.25 at the location it leaves, does so before it assigns the
    new location, and touches neither the point clouds nor the contours. *)
Theorem move_along_direction (self : Environment.t) (dist : R) :
  let self' := state_of (Environment.move dist) self in
  let h := Environment._direction self * (PI / 180) in
  Environment._loc self' =
    (dist * cos h + fst (Environment._loc self),
     dist * sin h + snd (Environment._loc self)) /\
  Environment._direction self' = Environment._direction self /\
  Environment.breadcrumbs self' =
    Environment.breadcrumbs self ++ [mkCircle (Environment._loc self) 16.25] /\
  Environment.ir_obs self' = Environment.ir_obs self /\
  Environment.sonar_obs self' = Environment.sonar_obs self /\
  Environment.contours self' = Environment.contours self /\
  Environment.volatile_contours self' = Environment.volatile_contours self /\
  events_of (Environment.move dist) self =
    [EvBreadcrumb (mkCircle (Environment._loc self) 16.25);
     EvLoc (Environment._loc self')].
Proof.
  intros self' h.
  assert (Environment._loc self' = Environment.conv_radial self 90 dist) as E
    by reflexivity.
  rewrite conv_radial_90 in E. fold h in E.
  repeat split; auto.
Qed.

(** ** Invariants of the Environment *)

Section EnvironmentInvariants.

Import Environment.

(** [add_scan] never raises: both calls of [conv_radial_arr] get two
    columns of one array. *)
Lemma add_scan_ok (self : t) (ir_data sonar_data : rarray) :
  add_scan self (ir_data, sonar_data) =
  Ok (mk (_loc self) (_direction self) (breadcrumbs self)
         (ir_obs self ++ [map (fun row => conv_radial self (fst row) (snd row)) ir_data])
         (sonar_obs self ++ [map (fun row => conv_radial self (fst row) (fst row)) sonar_data])
         (contours self) (volatile_contours self) (scan_field self)).
Proof.
  unfold add_scan.
  rewrite !conv_radial_arr_map by (now rewrite !length_map).
  simpl. rewrite combine_fst_snd, combine_self, !map_map. reflexivity.
Qed.

Lemma run_ops_invariant (P : t -> Prop) :
  (forall s op, P s -> P (run_op s op)) ->
  forall ops s, P s -> P (run_ops s ops).
Proof.
  intros Hstep ops. unfold run_ops.
  induction ops as [|op ops IH]; simpl; intros s Hs; auto.
Qed.

Lemma run_op_scan_field (s : t) (op : env_op) :
  scan_field_ok s -> scan_field_ok (run_op s op).
Proof.
  unfold scan_field_ok. intros H.
  destruct op as [l|d|d|d|[i so]| |d|xs ys [|]| |]; unfold run_op;
    try rewrite add_scan_ok; simpl; try exact H; reflexivity.
Qed.

Lemma run_op_breadcrumbs (s : t) (op : env_op) :
  breadcrumbs (run_op s op) =
  breadcrumbs s ++ (if is_breadcrumb_op op then [mkCircle (_loc s) 16.25] else []).
Proof.
  destruct op as [l|d|d|d|[i so]| |d|xs ys [|]| |]; unfold run_op;
    try rewrite add_scan_ok; simpl; try rewrite app_nil_r; reflexivity.
Qed.

Lemma run_op_clouds (s : t) (op : env_op) :
  (length (ir_obs (run_op s op)) =
   length (ir_obs s) + (if is_add_scan op then 1 else 0))%nat /\
  (length (sonar_obs (run_op s op)) =
   length (sonar_obs s) + (if is_add_scan op then 1 else 0))%nat.
Proof.
  destruct op as [l|d|d|d|[i so]| |d|xs ys [|]| |]; unfold run_op;
    try rewrite add_scan_ok; unfold state_of, add_danger, emit; simpl;
    rewrite ?length_app; simpl; split; lia.
Qed.

Lemma extends_refl {A} (l : list A) : extends l l.
Proof. exists []. now rewrite app_nil_r. Qed.

Lemma extends_trans {A} (l1 l2 l3 : list A) :
  extends l1 l2 -> extends l2 l3 -> extends l1 l3.
Proof.
  intros (a & ->) (b & ->). exists (a ++ b). now rewrite app_assoc.
Qed.

Lemma extends_app {A} (l a : list A) : extends l (l ++ a).
Proof. now exists a. Qed.

Lemma run_op_extends (s : t) (op : env_op) :
  extends (breadcrumbs s) (breadcrumbs (run_op s op)) /\
  extends (contours s) (contours (run_op s op)) /\
  extends (ir_obs s) (ir_obs (run_op s op)) /\
  extends (sonar_obs s) (sonar_obs (run_op s op)).
Proof.
  destruct op as [l|d|d|d|[i so]| |d|xs ys [|]| |]; unfold run_op;
    try rewrite add_scan_ok; simpl;
    repeat split; auto using extends_refl, extends_app.
Qed.

End EnvironmentInvariants.

(** X12: [add_scan] never raises; it stores one batch per channel, the IR
    batch being [conv_radial] of every (angle, radius) row in order, each
    batch with as many points as the channel has rows, and it changes
    nothing else of the Environment. *)
Theorem add_scan_total (self : Environment.t) (sd : rarray * rarray) :
  exists self',
    Environment.add_scan self sd = Ok self' /\
    Environment.ir_obs self' =
      Environment.ir_obs self ++
      [map (fun row => Environment.conv_radial self (fst row) (snd row)) (fst sd)] /\
    (exists sonar_points,
       Environment.sonar_obs self' = Environment.sonar_obs self ++ [sonar_points] /\
       length sonar_points = length (snd sd)) /\
    Environment._loc self' = Environment._loc self /\
    Environment._direction self' = Environment._direction self /\
    Environment.breadcrumbs self' = Environment.breadcrumbs self /\
    Environment.contours self' = Environment.contours self /\
    Environment.volatile_contours self' = Environment.volatile_contours self /\
    Environment.scan_field self' = Environment.scan_field self.
Proof.
  destruct sd as [ir_data sonar_data]. rewrite add_scan_ok.
  eexists. split; [reflexivity|]. simpl. split; [reflexivity|].
  split; [|repeat split].
  eexists. split; [reflexivity|]. now rewrite length_map.
Qed.

(** X13: from [__init__] on, whatever calls are made, the scan field is
    the half disc of radius 100 at the current location, from 90 degrees
    right to 90 degrees left of the current direction. *)
Theorem scan_field_follows_pose (ops : list env_op) :
  scan_field_ok (run_ops Environment.init ops).
Proof.
  apply run_ops_invariant; [apply run_op_scan_field|reflexivity].
Qed.

(** X14: the breadcrumbs count the stops: after any calls there is one
    more breadcrumb for every [move] and every [add_breadcumb] made, no
    other call adds or removes one, and starting from [__init__] every
    breadcrumb has radius 16.25. *)
Theorem breadcrumbs_count_moves (self : Environment.t) (ops : list env_op) :
  length (Environment.breadcrumbs (run_ops self ops)) =
    (length (Environment.breadcrumbs self) + length (filter is_breadcrumb_op ops))%nat /\
  Forall (fun c => radius c = 16.25)
         (Environment.breadcrumbs (run_ops Environment.init ops)).
Proof.
  split.
  - revert self. unfold run_ops.
    induction ops as [|op ops IH]; intros self; simpl; [lia|].
    rewrite IH, run_op_breadcrumbs, length_app.
    destruct (is_breadcrumb_op op); simpl; lia.
  - apply (run_ops_invariant
             (fun s => Forall (fun c => radius c = 16.25) (Environment.breadcrumbs s))).
    + intros s op Hs. rewrite run_op_breadcrumbs. apply Forall_app. split; [exact Hs|].
      destruct (is_breadcrumb_op op); repeat constructor.
    + constructor.
Qed.

(** X15: breadcrumbs, finalized contours and both point clouds are
    append-only: whatever calls are made, each of these lists still starts
    with everything it held before. *)
Theorem lists_append_only (self : Environment.t) (ops : list env_op) :
  extends (Environment.breadcrumbs self) (Environment.breadcrumbs (run_ops self ops)) /\
  extends (Environment.contours self) (Environment.contours (run_ops self ops)) /\
  extends (Environment.ir_obs self) (Environment.ir_obs (run_ops self ops)) /\
  extends (Environment.sonar_obs self) (Environment.sonar_obs (run_ops self ops)).
Proof.
  revert self. unfold run_ops.
  induction ops as [|op ops IH]; intros self; simpl.
  - repeat split; apply extends_refl.
  - destruct (run_op_extends self op) as (H1 & H2 & H3 & H4).
    destruct (IH (run_op self op)) as (K1 & K2 & K3 & K4).
    repeat split; eapply extends_trans; eauto.
Qed.

(** X16: the two point clouds stay batch-aligned: each holds one batch per
    [add_scan] call made, so from [__init__] on they hold equally many. *)
Theorem clouds_batch_aligned (self : Environment.t) (ops : list env_op) :
  length (Environment.ir_obs (run_ops self ops)) =
    (length (Environment.ir_obs self) + length (filter is_add_scan ops))%nat /\
  length (Environment.sonar_obs (run_ops self ops)) =
    (length (Environment.sonar_obs self) + length (filter is_add_scan ops))%nat /\
  length (Environment.ir_obs (run_ops Environment.init ops)) =
    length (Environment.sonar_obs (run_ops Environment.init ops)).
Proof.
  assert (forall s,
            length (Environment.ir_obs (run_ops s ops)) =
              (length (Environment.ir_obs s) + length (filter is_add_scan ops))%nat /\
            length (Environment.sonar_obs (run_ops s ops)) =
              (length (Environment.sonar_obs s) + length (filter is_add_scan ops))%nat) as H.
  { unfold run_ops. induction ops as [|op ops IH]; intros s; simpl; [lia|].
    destruct (IH (run_op s op)) as (-> & ->).
    destruct (run_op_clouds s op) as (-> & ->).
    destruct (is_add_scan op); simpl; lia. }
  destruct (H self) as (H1 & H2). destruct (H Environment.init) as (H3 & H4).
  repeat split; auto. rewrite H3, H4. reflexivity.
Qed.

(** ** The Rover *)

(** X17: [Rover.move] leaves the Environment that [finalize_contours]
    followed by [Environment.move] of the distance the robot reports
    leaves, whatever distance was asked for and whatever the stop reason;
    the danger is only logged, last, and exactly when the stop reason is
    not [full_distance]. *)
Theorem rover_move_uses_reported_distance
  (oi_move : R -> R -> R * Z) (full_distance : Z)
  (self : Rover.t) (dist speed : R) :
  let moved := Rover.move oi_move full_distance dist speed in
  let actual := fst (oi_move dist speed) in
  let stop_reason := snd (oi_move dist speed) in
  Rover.env (state_of moved self) =
    state_of (Environment.move actual)
             (state_of Environment.finalize_contours (Rover.env self)) /\
  events_of moved self =
    [EvScannerReplaced; EvContoursFinalized; EvOiMove dist speed] ++
    events_of (Environment.move actual)
              (state_of Environment.finalize_contours (Rover.env self)) ++
    (if (stop_reason =? full_distance)%Z then [] else [EvDanger stop_reason]).
Proof.
  intros moved actual stop_reason.
  unfold moved, actual, stop_reason, state_of, events_of, Rover.move, bind.
  destruct (oi_move dist speed) as [d sr]. simpl.
  destruct (sr =? full_distance)%Z; simpl; split; reflexivity.
Qed.

(** X18: a reorientation throws the accumulated scans away: right after
    [Rover.move] or [Rover.rotate], whatever had been scanned,
    [find_obj_clouds] on the rover's scanner raises NotImplementedError;
    and [Rover.rotate] turns the Environment by [delta] after finalizing
    its contours. *)
Theorem reorientation_discards_scans
  (oi_move : R -> R -> R * Z) (full_distance : Z)
  (self : Rover.t) (dist speed delta : R) :
  Scanner.find_obj_clouds
    (Rover.scanner (state_of (Rover.move oi_move full_distance dist speed) self)) =
    Raise NotImplementedError /\
  Scanner.find_obj_clouds (Rover.scanner (state_of (Rover.rotate delta) self)) =
    Raise NotImplementedError /\
  Rover.env (state_of (Rover.rotate delta) self) =
    state_of (Environment.rotate delta)
             (state_of Environment.finalize_contours (Rover.env self)).
Proof.
  split; [|split; reflexivity].
  unfold state_of, Rover.move, bind.
  destruct (oi_move dist speed) as [d sr].
  destruct (negb (sr =? full_distance)%Z); reflexivity.
Qed.

(** ** Contours *)

(** X19: a contour added as volatile goes to the volatile list only, one
    added otherwise goes to the finalized list only; either way it is among
    the finalized contours after the next [finalize_contours], behind those
    finalized before, and neither call changes the pose, the breadcrumbs
    or the point clouds. *)
Theorem add_contour_then_finalize
  (self : Environment.t) (xs ys : list R) (volatile : bool) :
  let added := state_of (Environment.add_contour xs ys volatile) self in
  let final := state_of Environment.finalize_contours added in
  Environment.contours added =
    Environment.contours self ++ (if volatile then [] else [(xs, ys)]) /\
  Environment.volatile_contours added =
    Environment.volatile_contours self ++ (if volatile then [(xs, ys)] else []) /\
  Environment.contours final =
    Environment.contours self ++
    (if volatile then Environment.volatile_contours self ++ [(xs, ys)]
     else (xs, ys) :: Environment.volatile_contours self) /\
  In (xs, ys) (Environment.contours final) /\
  Environment._loc final = Environment._loc self /\
  Environment._direction final = Environment._direction self /\
  Environment.breadcrumbs final = Environment.breadcrumbs self /\
  Environment.ir_obs final = Environment.ir_obs self /\
  Environment.sonar_obs final = Environment.sonar_obs self.
Proof.
  destruct volatile; unfold state_of; simpl; rewrite ?app_nil_r.
  - repeat split; auto. rewrite !in_app_iff. simpl. auto.
  - rewrite <- app_assoc. simpl. repeat split; auto.
    rewrite !in_app_iff. simpl. auto.
Qed.
